(** * csvdeduplicator: column selection and key-based deduplication

    A shallow embedding of [scripts/csvdeduplicator.py]: the column
    selector [parse_columns_options] and the deduplication loop of [main].

    Conventions.
    - Python [int] values are [Z]; [str] values are [string] (byte strings,
      read as UTF-8: the separator '-' is a single byte that never occurs
      inside a multi-byte sequence, so splitting bytes and splitting code
      points agree).
    - The builtin [int] on strings is a parameter [int : string → option Z]
      of the selector, [None] standing for [ValueError]: which strings the
      interpreter accepts depends on its version (Unicode digits and
      spaces, the limit on the number of digits).  Each theorem states
      what it needs of [int] as a hypothesis.
    - [sys.exit(msg)] and uncaught exceptions are explicit results of type
      [outcome].  Running out of memory is outside the model.
    - The dictionary [seen_keys] is a [gmap] from keys (tuples of strings,
      here [list string]) to strings. *)

From Stdlib Require Import ZArith Lia Ascii DecimalString DecimalNat.
From stdpp Require Import base option list strings gmap fin_maps.

Local Open Scope Z_scope.

(** ** Python primitives used by the script *)

Module Py.

(** Exceptions that the script does not catch on the modelled paths. *)
Inductive exception := IndexError | OverflowError.

Definition exception_name (e : exception) : string :=
  match e with
  | IndexError => "IndexError"
  | OverflowError => "OverflowError"
  end.

(** The result of running a piece of the script: a value, a call to
    [sys.exit] with its message, or an uncaught exception. *)
Inductive outcome (A : Type) :=
  | Return (a : A)
  | SysExit (msg : string)
  | Raise (e : exception).
Global Arguments Return {A} a.
Global Arguments SysExit {A} msg.
Global Arguments Raise {A} e.

Definition bind {A B} (o : outcome A) (k : A → outcome B) : outcome B :=
  match o with
  | Return a => k a
  | SysExit msg => SysExit msg
  | Raise e => Raise e
  end.

(** [s.split(sep)] for a one-character separator: the pieces between the
    occurrences of [sep], empty pieces included; never the empty list. *)
Fixpoint str_split (sep : ascii) (s : string) : list string :=
  match s with
  | EmptyString => [EmptyString]
  | String a s' =>
      if Ascii.eqb a sep then EmptyString :: str_split sep s'
      else match str_split sep s' with
           | [] => [String a EmptyString]
           | t :: ts => String a t :: ts
           end
  end.

(** [sep.join(ts)], the inverse view of [str_split]. *)
Fixpoint str_join (sep : ascii) (ts : list string) : string :=
  match ts with
  | [] => EmptyString
  | [t] => t
  | t :: ts' => (t +:+ String sep (str_join sep ts'))%string
  end.

(** No occurrence of [sep] in [s]. *)
Fixpoint sep_free (sep : ascii) (s : string) : bool :=
  match s with
  | EmptyString => true
  | String a s' => negb (Ascii.eqb a sep) && sep_free sep s'
  end.

(** Whitespace that [int] strips from both ends of an ASCII string:
    TAB, LF, VT, FF, CR and the space. *)
Definition is_space (a : ascii) : bool :=
  let n := nat_of_ascii a in
  ((9 <=? n)%nat && (n <=? 13)%nat) || (n =? 32)%nat.

Definition digit_value (a : ascii) : option Z :=
  let n := nat_of_ascii a in
  if ((48 <=? n)%nat && (n <=? 57)%nat) then Some (Z.of_nat (n - 48)) else None.

Fixpoint lstrip (l : list ascii) : list ascii :=
  match l with
  | a :: l' => if is_space a then lstrip l' else l
  | [] => []
  end.

Definition strip (l : list ascii) : list ascii :=
  rev (lstrip (rev (lstrip l))).

(** The digit part of a decimal literal: at least one digit, single
    underscores allowed between digits only.  [after_digit] records that
    the previous character was a digit. *)
Fixpoint digits (acc : Z) (after_digit : bool) (l : list ascii) : option Z :=
  match l with
  | [] => if after_digit then Some acc else None
  | a :: l' =>
      match digit_value a with
      | Some d => digits (10 * acc + d) true l'
      | None =>
          if Ascii.eqb a "_" then
            if after_digit then digits acc false l' else None
          else None
      end
  end.

(** A reader of ASCII decimal literals: surrounding ASCII whitespace is
    stripped, one sign is accepted, leading zeros are accepted, and every
    other string is refused.  It is one function that can stand for the
    parameter [int], used to run the definitions on concrete inputs (in
    examples and instances), at strings on which [int(s)] gives the same
    answer: literals of ordinary length, and strings with a character no
    Python version reads as a digit, sign, space or underscore.  It is not
    [int] itself, which also reads decimal digits and spaces outside ASCII
    and, from Python 3.11, refuses literals beyond its digit limit. *)
Definition read_decimal (s : string) : option Z :=
  match strip (String.list_ascii_of_string s) with
  | a :: l =>
      if Ascii.eqb a "+" then digits 0 false l
      else if Ascii.eqb a "-" then Z.opp <$> digits 0 false l
      else digits 0 false (a :: l)
  | [] => None
  end.

(** [sys.maxsize] on a 64-bit build: the largest length of a list. *)
Definition maxsize : Z := 2 ^ 63 - 1.

(** [list(range(start, stop))]: the range object itself always exists;
    building the list of a range with more than [sys.maxsize] elements
    raises [OverflowError] (its length is no [Py_ssize_t]).  A list of at
    most [sys.maxsize] elements is taken to fit in memory. *)
Definition range (start stop : Z) : outcome (list Z) :=
  if maxsize <? stop - start then Raise OverflowError
  else Return (seqZ start (stop - start)).

(** Truth value of an optional string, as tested by [if r_option:]:
    [None] and the empty string are false. *)
Definition truthy (o : option string) : option string :=
  match o with
  | Some EmptyString => None
  | _ => o
  end.

(** [row[i]] on a list, negative indices counting from the end; [None]
    stands for [IndexError]. *)
Definition getitem {A} (l : list A) (i : Z) : option A :=
  let n := Z.of_nat (length l) in
  if 0 <=? i then l !! Z.to_nat i
  else if - n <=? i then l !! Z.to_nat (n + i)
  else None.

End Py.

Import Py.

(** ** Column selector: [parse_columns_options] *)

Module Selector.

Definition invalid_integer_msg : string :=
  "Error: Invalid column number detected in -r option. Please ensure all parts are integers.".

Definition no_valid_columns_msg : string :=
  "Error: No valid columns specified for duplicate checking based on the CSV size.".

(** [[col for col in columns if 1 <= col <= total_columns]]. *)
Definition valid_columns (total_columns : Z) (columns : list Z) : list Z :=
  filter (λ col, 1 ≤ col ≤ total_columns) columns.

Section Interpreter.

(** The builtin [int] applied to a string; [None] stands for [ValueError]. *)
Variable int : string → option Z.

(** The value of the local [columns] when control reaches the range
    filter (the [if r_option: ... else: ...] block).  [parts[0]] and
    [list(range(...))] sit inside the [try], whose handler catches
    [ValueError] only. *)
Definition candidate_columns
    (r_option : option string) (c_option : option Z) (total_columns : Z)
    : outcome (list Z) :=
  match truthy r_option with
  | Some r =>
      let parts := str_split "-" r in
      match c_option with
      | Some c =>
          match parts !! 0%nat with
          | None => Raise IndexError
          | Some p0 =>
              match int p0 with
              | None => SysExit invalid_integer_msg
              | Some start => range start (start + c)
              end
          end
      | None =>
          match mapM int parts with
          | None => SysExit invalid_integer_msg
          | Some columns => Return columns
          end
      end
  | None =>
      match c_option with
      | Some c => let start := 1 in range start (start + c)
      | None => range 1 (total_columns + 1)
      end
  end.

Definition parse_columns_options
    (r_option : option string) (c_option : option Z) (total_columns : Z)
    : outcome (list Z) :=
  bind (candidate_columns r_option c_option total_columns) (λ columns,
    match valid_columns total_columns columns with
    | [] => SysExit no_valid_columns_msg
    | valid => Return valid
    end).

End Interpreter.


(** The error kind of the specification: either of the two exits. *)
Definition InvalidColumnSpec {A} (o : outcome A) : Prop :=
  o = SysExit invalid_integer_msg ∨ o = SysExit no_valid_columns_msg.

End Selector.

(** ** Deduplication loop of [main] *)

Module Dedup.

(** A row is the list of its fields. *)
Abbreviation Row := (list string).

(** [row[i] if i < len(row) else ""] *)
Definition key_field (row : Row) (i : Z) : outcome string :=
  if i <? Z.of_nat (length row) then
    match getitem row i with
    | Some x => Return x
    | None => Raise IndexError
    end
  else Return EmptyString.

(** [tuple(row[i] if i < len(row) else "" for i in col_indices)] *)
Fixpoint build_key (col_indices : list Z) (row : Row) : outcome (list string) :=
  match col_indices with
  | [] => Return []
  | i :: rest =>
      bind (key_field row i) (λ x,
      bind (build_key rest row) (λ xs, Return (x :: xs)))
  end.

(** [row[0] if len(row) > 0 else ""] *)
Definition identity (row : Row) : string :=
  if 0 <? Z.of_nat (length row) then default EmptyString (getitem row 0)
  else EmptyString.

(** The variables the loop updates; [dup_file] holds the records written
    by [dup_writer.writerow], in order. *)
Record state := State {
  seen_keys : gmap (list string) string;
  deduped_rows : list Row;
  dup_file : list (string * string)
}.

Definition initial : state := State ∅ [] [].

(** One iteration of [for row in rows]. *)
Definition loop_body (col_indices : list Z) (st : state) (row : Row) : outcome state :=
  bind (build_key col_indices row) (λ key,
    match seen_keys st !! key with
    | Some original_value =>
        let duplicate_value := identity row in
        Return (State (seen_keys st) (deduped_rows st)
                      (dup_file st ++ [(original_value, duplicate_value)]))
    | None =>
        Return (State (<[key := identity row]> (seen_keys st))
                      (deduped_rows st ++ [row])
                      (dup_file st))
    end).

Fixpoint loop (col_indices : list Z) (st : state) (rows : list Row) : outcome state :=
  match rows with
  | [] => Return st
  | row :: rest => bind (loop_body col_indices st row) (λ st', loop col_indices st' rest)
  end.

(** [col_indices = [col - 1 for col in cols_to_use]] followed by the loop;
    the result is the pair of outputs. *)
Definition Deduplicate (rows : list Row) (cols_to_use : list Z)
    : outcome (list Row * list (string * string)) :=
  let col_indices := (λ col, col - 1) <$> cols_to_use in
  bind (loop col_indices initial rows) (λ st,
    Return (deduped_rows st, dup_file st)).

Definition empty_file_msg : string := "Error: The CSV file is empty.".

(** [main] after the file has been read into [rows], up to the loop's
    end: the emptiness check, the table width taken from the first row,
    column selection and deduplication. *)
Definition main (int : string → option Z)
    (rows : list Row) (r_option : option string) (c_option : option Z)
    : outcome (list Row * list (string * string)) :=
  match rows with
  | [] => SysExit empty_file_msg
  | header :: _ =>
      let total_columns := Z.of_nat (length header) in
      bind (Selector.parse_columns_options int r_option c_option total_columns)
           (λ cols_to_use, Deduplicate rows cols_to_use)
  end.

(** *** The specification's reading of the outputs *)

(** The Key of a row for 1-indexed column positions: the field at each
    position, the empty string where the row is too short. *)
Definition Key (columns : list Z) (row : Row) : list string :=
  (λ col, default EmptyString (row !! Z.to_nat (col - 1))) <$> columns.

(** Rows whose Key did not occur at an earlier position, in input order. *)
Definition first_occurrences (columns : list Z) (rows : list Row) : list Row :=
  omap (λ i,
          row ← rows !! i;
          if decide (Key columns row ∈ Key columns <$> take i rows)
          then None else Some row)
       (seq 0 (length rows)).

(** For each row whose Key occurred earlier, the identity of the earliest
    row with that Key paired with the identity of the row itself. *)
Definition duplicate_pairs (columns : list Z) (rows : list Row)
    : list (string * string) :=
  omap (λ i,
          row ← rows !! i;
          orig ← list_find (λ r, Key columns r = Key columns row) (take i rows);
          Some (identity orig.2, identity row))
       (seq 0 (length rows)).

End Dedup.

Import Selector Dedup.

(** ** The command line: [list_headers] and the rest of [main] *)

Module Cli.

(** [f"{idx}"] for a position: the decimal digits of [idx]. *)
Definition str_of_nat (n : nat) : string :=
  NilEmpty.string_of_uint (Nat.to_uint n).

(** [s.rfind(a)] for a one-character [a]: the last index holding [a], or
    -1.  [i] is the index of the head of [l], [found] the last hit so far. *)
Fixpoint rfind_from (a : ascii) (l : list ascii) (i found : Z) : Z :=
  match l with
  | [] => found
  | x :: l' => rfind_from a l' (i + 1) (if Ascii.eqb x a then i else found)
  end.

Definition rfind (a : ascii) (l : list ascii) : Z := rfind_from a l 0 (-1).

(** [os.path.splitext(p)] on a POSIX system (separator "/", extension
    separator "."): the extension starts at the last dot, provided that dot
    comes after the last separator and is preceded, within the file name,
    by a character that is not a dot; otherwise the extension is empty. *)
Definition splitext (p : string) : string * string :=
  let l := String.list_ascii_of_string p in
  let sepIndex := rfind "/" l in
  let dotIndex := rfind "." l in
  if sepIndex <? dotIndex then
    let filenameIndex := sepIndex + 1 in
    let leading :=
      take (Z.to_nat (dotIndex - filenameIndex)) (drop (Z.to_nat filenameIndex) l) in
    if existsb (λ x, negb (Ascii.eqb x ".")) leading then
      (String.string_of_list_ascii (take (Z.to_nat dotIndex) l),
       String.string_of_list_ascii (drop (Z.to_nat dotIndex) l))
    else (p, EmptyString)
  else (p, EmptyString).

(** [base, ext = os.path.splitext(input_file)] and
    [output_file = f"{base}_deduped{ext}"]. *)
Definition output_file (input_file : string) : string :=
  let '(base, ext) := splitext input_file in
  (base +:+ "_deduped" +:+ ext)%string.

Definition dup_file_name : string := "deduplicate_list".

(** What reading the input file gives: the rows [csv.reader] yields, or an
    exception with its text. *)
Inductive file_read :=
  | Rows (rows : list Row)
  | Unreadable (e : string).

(** How a run ends: [sys.exit] with a status or with a message, an
    uncaught exception, or the end of [main]. *)
Inductive ending :=
  | ExitStatus (code : Z)
  | ExitMessage (msg : string)
  | Uncaught (e : string)
  | Completed.

(** What a run leaves behind: the lines printed, and the files opened for
    writing with the rows written to them, in the order of opening. *)
Record run := Run {
  stdout : list string;
  written : list (string * list Row);
  ended : ending
}.

(** [list_headers]: [headers = next(reader)] inside the [try], then the
    listing and [sys.exit(0)]. *)
Definition list_headers (content : file_read) : run :=
  match content with
  | Rows [] => Run [] [] (ExitMessage "Error: The CSV file is empty.")
  | Unreadable e => Run [] [] (ExitMessage ("Error reading CSV file: " +:+ e))
  | Rows (headers :: _) =>
      Run ("Column index : Header"%string ::
           imap (λ i header, (str_of_nat (S i) +:+ ": " +:+ header)%string) headers)
          [] (ExitStatus 0)
  end.

(** The parsed command line. *)
Record arguments := Arguments {
  csvfile : string;
  c : option Z;
  r : option string;
  q : bool
}.

(** [main] after [parse_args]: [isfile] is the answer of
    [os.path.isfile(input_file)], [content] what reading the file gives.
    The duplicate log is opened once column selection has succeeded and is
    written during the loop; the output file is written after the loop.
    The rows already written when an exception interrupts the loop are not
    tracked. *)
Definition main (int : string → option Z)
    (args : arguments) (isfile : bool) (content : file_read) : run :=
  if negb isfile then Run [] [] (ExitMessage "Error: Input file does not exist.")
  else if q args then list_headers content
  else
    match content with
    | Unreadable e => Run [] [] (Uncaught e)
    | Rows [] => Run [] [] (ExitMessage empty_file_msg)
    | Rows (header :: rest) =>
        let rows := header :: rest in
        let total_columns := Z.of_nat (length header) in
        match parse_columns_options int (r args) (c args) total_columns with
        | SysExit msg => Run [] [] (ExitMessage msg)
        | Raise e => Run [] [] (Uncaught (exception_name e))
        | Return cols_to_use =>
            match Deduplicate rows cols_to_use with
            | Return (deduped_rows, pairs) =>
                Run [("Deduplicated CSV file written to " +:+ output_file (csvfile args))%string;
                     "Duplicate pairs (column1 values) have been written to 'deduplicate_list'."%string]
                    [(dup_file_name, (λ p : string * string, [p.1; p.2]) <$> pairs);
                     (output_file (csvfile args), deduped_rows)]
                    Completed
            | SysExit msg => Run [] [(dup_file_name, [])] (ExitMessage msg)
            | Raise e => Run [] [(dup_file_name, [])] (Uncaught (exception_name e))
            end
        end
    end.

End Cli.

(** ** Unit checks on concrete inputs *)

Section Checks.

Local Open Scope string_scope.

Example read_decimal_accepts :
  read_decimal "3" = Some 3 ∧ read_decimal " +1_000 " = Some 1000 ∧
  read_decimal "-5" = Some (-5) ∧ read_decimal "007" = Some 7.
Proof. repeat split. Qed.

Example read_decimal_rejects :
  read_decimal "" = None ∧ read_decimal "x" = None ∧ read_decimal "1__0" = None ∧
  read_decimal "1_" = None ∧ read_decimal "_1" = None ∧ read_decimal "+ 3" = None ∧
  read_decimal "3.0" = None ∧ read_decimal (String "028" "3") = None.
Proof. repeat split. Qed.

Example str_split_pieces :
  str_split "-" "3-5-8" = ["3"; "5"; "8"] ∧ str_split "-" "-3" = [""; "3"] ∧
  str_split "-" "" = [""] ∧ str_split "-" "3-" = ["3"; ""].
Proof. repeat split. Qed.

Example range_runs :
  range 3 5 = Return [3; 4] ∧ range 3 3 = Return [] ∧ range 3 1 = Return [] ∧
  range 2 (2 + 2 ^ 63) = Raise OverflowError.
Proof. repeat split. Qed.

Example select_literal_list :
  parse_columns_options read_decimal (Some "3-5-8") None 10 = Return [3; 5; 8] ∧
  parse_columns_options read_decimal (Some "3-5-8") None 4 = Return [3].
Proof. split; reflexivity. Qed.

Example select_start_and_count :
  parse_columns_options read_decimal (Some "3") (Some 2) 10 = Return [3; 4].
Proof. reflexivity. Qed.

Example select_count_only :
  parse_columns_options read_decimal None (Some 2) 10 = Return [1; 2].
Proof. reflexivity. Qed.

Example select_all : parse_columns_options read_decimal None None 4 = Return [1; 2; 3; 4].
Proof. reflexivity. Qed.

Example select_out_of_range :
  parse_columns_options read_decimal (Some "50") None 4 = SysExit no_valid_columns_msg.
Proof. reflexivity. Qed.

Example select_empty_r_is_absent :
  parse_columns_options read_decimal (Some "") None 2 = Return [1; 2].
Proof. reflexivity. Qed.

Example select_huge_count :
  parse_columns_options read_decimal (Some "2") (Some (2 ^ 63)) 3 = Raise OverflowError.
Proof. reflexivity. Qed.

Example dedup_end_to_end :
  Deduplicate [["a"; "1"]; ["b"; "2"]; ["a"; "1"]; ["c"; "3"]; ["a"; "9"]] [1]
  = Return ([["a"; "1"]; ["b"; "2"]; ["c"; "3"]], [("a", "a"); ("a", "a")]).
Proof. vm_compute. reflexivity. Qed.

Example outputs_end_to_end :
  first_occurrences [1] [["a"; "1"]; ["b"; "2"]; ["a"; "1"]; ["c"; "3"]; ["a"; "9"]]
  = [["a"; "1"]; ["b"; "2"]; ["c"; "3"]] ∧
  duplicate_pairs [1] [["a"; "1"]; ["b"; "2"]; ["a"; "1"]; ["c"; "3"]; ["a"; "9"]]
  = [("a", "a"); ("a", "a")].
Proof. vm_compute. split; reflexivity. Qed.

(** The header row takes part like any other row. *)
Example main_header_is_a_row :
  main read_decimal [["id"; "v"]; ["1"; "x"]; ["id"; "w"]] (Some "1") None
  = Return ([["id"; "v"]; ["1"; "x"]], [("id", "id")]).
Proof. vm_compute. reflexivity. Qed.

(** A position below 1 is not a resolved column: index -1 reads the last
    field, and fails on a row without fields. *)
Example unresolved_position :
  build_key [-1] ["x"; "y"] = Return ["y"] ∧ Deduplicate [[]] [0] = Raise IndexError.
Proof. split; vm_compute; reflexivity. Qed.

End Checks.

(** ** Properties of the Python primitives *)

Section Primitives.

Lemma str_split_cons sep s : ∃ t ts, str_split sep s = t :: ts.
Proof.
  induction s as [|a s [t [ts IH]]]; simpl; [by eauto|].
  destruct (Ascii.eqb a sep); [by eauto|]. rewrite IH. by eauto.
Qed.

Lemma str_join_cons sep t t' ts :
  str_join sep (t :: t' :: ts) = (t +:+ String sep (str_join sep (t' :: ts)))%string.
Proof. done. Qed.

(** Joining the pieces with the separator gives the string back. *)
Lemma str_join_split sep s : str_join sep (str_split sep s) = s.
Proof.
  induction s as [|a s IH]; [done|].
  destruct (str_split_cons sep s) as (t & ts & Hs).
  cbn [str_split]. rewrite Hs in IH |- *.
  destruct (Ascii.eqb_spec a sep) as [->|Hne].
  - rewrite str_join_cons, IH. done.
  - destruct ts as [|t' ts].
    + simpl in *. by rewrite IH.
    + rewrite str_join_cons in IH. rewrite str_join_cons. by rewrite <- IH.
Qed.

Lemma str_split_sep_free sep t : sep_free sep t = true → str_split sep t = [t].
Proof.
  induction t as [|a t IH]; simpl; [done|].
  destruct (Ascii.eqb a sep); simpl; [done|]. intros H. by rewrite IH.
Qed.

Lemma str_split_pieces_sep_free sep s :
  Forall (λ t, sep_free sep t = true) (str_split sep s).
Proof.
  induction s as [|a s IH]; simpl; [by repeat constructor|].
  destruct (Ascii.eqb a sep) eqn:Ha; [by constructor|].
  destruct (str_split sep s) as [|t ts]; [by repeat constructor; simpl; rewrite Ha|].
  inversion IH; subst. constructor; [|done]. simpl. by rewrite Ha.
Qed.

Lemma str_split_app sep t s :
  sep_free sep t = true →
  str_split sep (t +:+ String sep s) = t :: str_split sep s.
Proof.
  induction t as [|a t IH]; simpl.
  - by rewrite Ascii.eqb_refl.
  - destruct (Ascii.eqb a sep); simpl; [done|]. intros H. by rewrite IH.
Qed.

(** Splitting a joined list of separator-free tokens gives the tokens. *)
Lemma str_split_join sep ts :
  ts ≠ [] → Forall (λ t, sep_free sep t = true) ts →
  str_split sep (str_join sep ts) = ts.
Proof.
  intros Hne Hall. induction Hall as [|t ts Ht Hts IH]; [done|].
  destruct ts as [|t' ts']; simpl.
  - by apply str_split_sep_free.
  - rewrite str_split_app by done. f_equal. by apply IH.
Qed.

Lemma range_count start c :
  c ≤ maxsize → range start (start + c) = Return (seqZ start c).
Proof.
  intros Hc. unfold range. destruct (Z.ltb_spec maxsize (start + c - start)); [lia|].
  do 2 f_equal. lia.
Qed.

Lemma range_overflow start c :
  maxsize < c → range start (start + c) = Raise OverflowError.
Proof.
  intros Hc. unfold range. by destruct (Z.ltb_spec maxsize (start + c - start)); [|lia].
Qed.

Lemma range_outcome start stop :
  (stop - start ≤ maxsize ∧ range start stop = Return (seqZ start (stop - start))) ∨
  (maxsize < stop - start ∧ range start stop = Raise OverflowError).
Proof.
  unfold range. destruct (Z.ltb_spec maxsize (stop - start)); [by right|by left].
Qed.

Lemma maxsize_positive : 0 < maxsize.
Proof. done. Qed.

Lemma getitem_nonneg {A} (l : list A) i : 0 ≤ i → getitem l i = l !! Z.to_nat i.
Proof. intros Hi. unfold getitem. destruct (Z.leb_spec 0 i); [done|lia]. Qed.

End Primitives.

(** ** Properties of the column selector *)

Section SelectorFacts.

Variable int : string → option Z.

Implicit Types (r : string) (c w : Z).

Lemma messages_distinct : invalid_integer_msg ≠ no_valid_columns_msg.
Proof. discriminate. Qed.

Lemma truthy_Some r : r ≠ EmptyString → truthy (Some r) = Some r.
Proof. by destruct r. Qed.

Lemma truthy_Some_inv ro r : truthy ro = Some r → ro = Some r ∧ r ≠ EmptyString.
Proof. destruct ro as [[|a s]|]; intros H; simplify_eq/=; done. Qed.

Lemma candidate_both r c w p0 rest :
  r ≠ EmptyString → str_split "-" r = p0 :: rest →
  candidate_columns int (Some r) (Some c) w =
    match int p0 with
    | Some start => range start (start + c)
    | None => SysExit invalid_integer_msg
    end.
Proof.
  intros Hr Hs. unfold candidate_columns. rewrite truthy_Some by done.
  cbv zeta. rewrite Hs. change ((p0 :: rest) !! 0%nat) with (Some p0).
  cbv beta iota. by destruct (int p0).
Qed.

Lemma candidate_list r w :
  r ≠ EmptyString →
  candidate_columns int (Some r) None w =
    match mapM int (str_split "-" r) with
    | Some columns => Return columns
    | None => SysExit invalid_integer_msg
    end.
Proof. intros Hr. unfold candidate_columns. by rewrite truthy_Some. Qed.

Lemma candidate_count ro c w :
  truthy ro = None → candidate_columns int ro (Some c) w = range 1 (1 + c).
Proof. intros Hr. unfold candidate_columns. by rewrite Hr. Qed.

Lemma candidate_all ro w :
  truthy ro = None → candidate_columns int ro None w = range 1 (1 + w).
Proof.
  intros Hr. unfold candidate_columns. rewrite Hr. by rewrite (Z.add_comm w 1).
Qed.

(** The only exception that escapes the selector is the [OverflowError]
    of a run too long to be built; [ValueError] is turned into an exit,
    and [parts[0]] always exists. *)
Lemma candidate_raise ro co w e :
  candidate_columns int ro co w = Raise e →
  e = OverflowError ∧
  ((∃ c, co = Some c ∧ maxsize < c) ∨
   (co = None ∧ truthy ro = None ∧ maxsize < w)).
Proof.
  destruct (truthy ro) as [r|] eqn:Hro.
  - apply truthy_Some_inv in Hro as [-> Hr].
    destruct (str_split_cons "-" r) as (p0 & rest & Hs).
    destruct co as [c|].
    + rewrite (candidate_both r c w p0 rest Hr Hs).
      destruct (int p0) as [start|]; [|done].
      destruct (range_outcome start (start + c)) as [[_ ->]|[Hc ->]]; [done|].
      intros [= <-]. split; [done|]. left. exists c. split; [done|lia].
    + rewrite (candidate_list r w Hr). by destruct (mapM int _).
  - destruct co as [c|].
    + rewrite candidate_count by done.
      destruct (range_outcome 1 (1 + c)) as [[_ ->]|[Hc ->]]; [done|].
      intros [= <-]. split; [done|]. left. exists c. split; [done|lia].
    + rewrite candidate_all by done.
      destruct (range_outcome 1 (1 + w)) as [[_ ->]|[Hc ->]]; [done|].
      intros [= <-]. split; [done|]. right. split_and!; [done..|lia].
Qed.




Lemma valid_columns_Forall w columns :
  Forall (λ v, 1 ≤ v ≤ w) (valid_columns w columns).
Proof.
  apply Forall_forall. intros v Hv.
  by apply list_elem_of_filter in Hv as [? _].
Qed.


Lemma parse_of_candidates ro co w columns :
  candidate_columns int ro co w = Return columns →
  parse_columns_options int ro co w =
    match valid_columns w columns with
    | [] => SysExit no_valid_columns_msg
    | valid => Return valid
    end.
Proof. intros H. unfold parse_columns_options. by rewrite H. Qed.

Lemma parse_of_exit ro co w msg :
  candidate_columns int ro co w = SysExit msg →
  parse_columns_options int ro co w = SysExit msg.
Proof. intros H. unfold parse_columns_options. by rewrite H. Qed.

Lemma parse_of_raise ro co w e :
  candidate_columns int ro co w = Raise e →
  parse_columns_options int ro co w = Raise e.
Proof. intros H. unfold parse_columns_options. by rewrite H. Qed.

(** Whatever the selector returns is a non-empty list of positions in
    [1, total_columns]. *)
Lemma parse_Return_range ro co w cols :
  parse_columns_options int ro co w = Return cols →
  cols ≠ [] ∧ Forall (λ v, 1 ≤ v ≤ w) cols.
Proof.
  unfold parse_columns_options.
  destruct (candidate_columns int ro co w) as [columns| |]; simpl; [|done..].
  pose proof (valid_columns_Forall w columns) as HF.
  destruct (valid_columns w columns) as [|v l]; [done|].
  intros [= <-]. by split.
Qed.

End SelectorFacts.

(** ** Claims about the column selector *)

Section SelectorClaims.

Implicit Types (int : string → option Z) (r : string) (c w : Z).

(** A count beyond [sys.maxsize] is no well-formed input: the run cannot
    be built, there is no candidate list, and the selector ends in an
    uncaught [OverflowError], which is neither of the two exits nor a
    list. *)
Lemma huge_count_raises_overflow :
  parse_columns_options read_decimal None (Some (2 ^ 63)) 3 = Raise OverflowError ∧
  ¬ InvalidColumnSpec (parse_columns_options read_decimal None (Some (2 ^ 63)) 3).
Proof.
  split; [reflexivity|]. intros [H|H]; vm_compute in H; discriminate.
Qed.






(** C5, as stated, fails: with a count supplied, a piece after the first
    that is not an integer is never read, and the selector returns. *)
Lemma invalid_later_piece_with_count_returns :
  "x"%string ∈ str_split "-" "3-x" ∧
  read_decimal "x" = None ∧
  read_decimal "3" = Some 3 ∧
  parse_columns_options read_decimal (Some "3-x"%string) (Some 2) 10 = Return [3; 4] ∧
  ¬ InvalidColumnSpec (parse_columns_options read_decimal (Some "3-x"%string) (Some 2) 10).
Proof.
  split_and!.
  - apply list_elem_of_In. vm_compute. tauto.
  - reflexivity.
  - reflexivity.
  - reflexivity.
  - intros [H|H]; vm_compute in H; discriminate.
Qed.

(** C5, amended.  For a non-empty [-r] string, the selector exits with the
    invalid-integer message exactly when a piece that it reads is not an
    integer: some piece, when no count is supplied; the first piece, when
    a count is supplied. *)
Theorem invalid_integer_exit int r co w :
  r ≠ EmptyString →
  (parse_columns_options int (Some r) co w = SysExit invalid_integer_msg ↔
   match co with
   | None => ∃ t, t ∈ str_split "-" r ∧ int t = None
   | Some _ => ∃ p0 rest, str_split "-" r = p0 :: rest ∧ int p0 = None
   end).
Proof.
  intros Hr. destruct co as [c|].
  - destruct (str_split_cons "-" r) as (p0 & rest & Hs).
    unfold parse_columns_options.
    rewrite (candidate_both int r c w p0 rest Hr Hs).
    destruct (int p0) as [start|] eqn:Hp0.
    + split.
      * destruct (range_outcome start (start + c)) as [[_ ->]|[_ ->]]; [|done].
        cbn [bind]. destruct (valid_columns w _); [|done].
        intros Hx. by inversion Hx.
      * intros (p & rest' & Hs' & Hp). congruence.
    + split; [|done]. intros _. by exists p0, rest.
  - unfold parse_columns_options. rewrite (candidate_list int r w Hr).
    destruct (mapM int (str_split "-" r)) as [columns|] eqn:Hm; cbn [bind].
    + split.
      * destruct (valid_columns w columns); [|done].
        intros Hx. by inversion Hx.
      * intros (t & Ht & Hn). apply mapM_Some in Hm.
        apply list_elem_of_lookup in Ht as [i Hi].
        destruct (Forall2_lookup_l _ _ _ _ _ Hm Hi) as (z & _ & Hz). congruence.
    + split; [|done]. intros _. apply mapM_None in Hm.
      apply Exists_exists in Hm as (t & Ht & Hn). by exists t.
Qed.

Lemma invalid_integer_exit_witness :
  parse_columns_options read_decimal (Some "3-x-8"%string) None 10
  = SysExit invalid_integer_msg.
Proof.
  apply (invalid_integer_exit read_decimal "3-x-8" None 10 ltac:(discriminate)).
  exists "x"%string. split; [|reflexivity].
  apply list_elem_of_In. vm_compute. tauto.
Defined.




(** C9. With a count supplied and a non-empty [-r] string whose first
    piece is an integer, the selector does not exit with the
    invalid-integer message, whatever the later pieces are (integers or
    not): its result is the one obtained from the first piece alone.
    ([int] refuses the empty string, so the first piece is not empty.) *)
Theorem later_pieces_not_parsed int r c w p0 rest start :
  int EmptyString = None →
  r ≠ EmptyString →
  str_split "-" r = p0 :: rest →
  int p0 = Some start →
  parse_columns_options int (Some r) (Some c) w ≠ SysExit invalid_integer_msg ∧
  parse_columns_options int (Some r) (Some c) w
    = parse_columns_options int (Some p0) (Some c) w.
Proof.
  intros Hempty Hr Hs Hp0. split.
  - unfold parse_columns_options.
    rewrite (candidate_both int r c w p0 rest Hr Hs), Hp0.
    destruct (range_outcome start (start + c)) as [[_ ->]|[_ ->]]; [|done].
    cbn [bind]. destruct (valid_columns w (seqZ start _)); [|done].
    intros Hx. by inversion Hx.
  - assert (p0 ≠ EmptyString) as Hne by (intros ->; congruence).
    assert (str_split "-" p0 = [p0]) as Hs0.
    { apply str_split_sep_free.
      pose proof (str_split_pieces_sep_free "-" r) as HF.
      rewrite Hs in HF. by inversion HF. }
    unfold parse_columns_options.
    by rewrite (candidate_both int r c w p0 rest Hr Hs),
               (candidate_both int p0 c w p0 [] Hne Hs0).
Qed.

Lemma later_pieces_not_parsed_witness :
  parse_columns_options read_decimal (Some "3-x"%string) (Some 2) 10
    ≠ SysExit invalid_integer_msg ∧
  parse_columns_options read_decimal (Some "3-x"%string) (Some 2) 10
    = parse_columns_options read_decimal (Some "3"%string) (Some 2) 10.
Proof.
  apply (later_pieces_not_parsed read_decimal "3-x" 2 10 "3" ["x"%string] 3).
  - reflexivity.
  - discriminate.
  - reflexivity.
  - reflexivity.
Defined.

(** C10. With a count [c <= 0] supplied, and the [-r] string either absent
    (or empty) or with a first piece that is an integer, the run of
    candidates is empty, nothing survives the range filter, and the
    selector exits with the no-valid-columns message, for every table
    width. *)
Theorem nonpositive_count_exit int ro c w :
  c ≤ 0 →
  (truthy ro = None ∨
   ∃ r p0 rest start,
     truthy ro = Some r ∧ str_split "-" r = p0 :: rest ∧ int p0 = Some start) →
  candidate_columns int ro (Some c) w = Return [] ∧
  valid_columns w [] = [] ∧
  parse_columns_options int ro (Some c) w = SysExit no_valid_columns_msg.
Proof.
  intros Hc Hro.
  pose proof maxsize_positive as Hmax.
  assert (candidate_columns int ro (Some c) w = Return []) as Hcand.
  { destruct Hro as [Hro|(r & p0 & rest & start & Hro & Hs & Hp0)].
    - rewrite candidate_count, range_count by (done || lia). by rewrite seqZ_nil.
    - apply truthy_Some_inv in Hro as [-> Hr].
      rewrite (candidate_both int r c w p0 rest Hr Hs), Hp0.
      rewrite range_count by lia. by rewrite seqZ_nil. }
  split_and!; [done|done|]. by rewrite (parse_of_candidates int _ _ _ _ Hcand).
Qed.

Lemma nonpositive_count_exit_witness :
  candidate_columns read_decimal (Some "3-5"%string) (Some 0) 10 = Return [] ∧
  valid_columns 10 [] = [] ∧
  parse_columns_options read_decimal (Some "3-5"%string) (Some 0) 10
    = SysExit no_valid_columns_msg.
Proof.
  apply (nonpositive_count_exit read_decimal (Some "3-5"%string) 0 10).
  - lia.
  - right. exists "3-5"%string, "3"%string, ["5"%string], 3.
    split_and!; reflexivity.
Defined.

End SelectorClaims.

(** ** Properties of the deduplication loop *)

Section ListFacts.

Context {A B : Type}.

Lemma omap_ext_elem (f g : A → option B) (l : list A) :
  (∀ x, x ∈ l → f x = g x) → omap f l = omap g l.
Proof.
  induction l as [|x l IH]; intros Hfg; [done|].
  change (omap f (x :: l)) with
    (match f x with Some y => y :: omap f l | None => omap f l end).
  change (omap g (x :: l)) with
    (match g x with Some y => y :: omap g l | None => omap g l end).
  rewrite (Hfg x) by left. rewrite IH; [done|].
  intros y Hy. apply Hfg. by right.
Qed.

Lemma list_find_snoc (P : A → Prop) `{!∀ x, Decision (P x)} (l : list A) (x : A) :
  list_find P (l ++ [x]) =
    match list_find P l with
    | Some p => Some p
    | None => if decide (P x) then Some (length l, x) else None
    end.
Proof.
  destruct (list_find P l) as [[i y]|] eqn:Hl.
  - by apply list_find_app_l.
  - rewrite list_find_app_r by done. simpl.
    destruct (decide (P x)); simpl; [|done].
    unfold prod_map. simpl. done.
Qed.

End ListFacts.

Section LoopFacts.

Implicit Types (row : Row) (rows : list Row) (st : state).

Lemma identity_head row : identity row = default EmptyString (head row).
Proof. by destruct row. Qed.

Lemma key_field_nonneg row i :
  0 ≤ i → key_field row i = Return (default EmptyString (row !! Z.to_nat i)).
Proof.
  intros Hi. unfold key_field. rewrite getitem_nonneg by done.
  destruct (Z.ltb_spec i (Z.of_nat (length row))) as [Hlt|Hge].
  - destruct (lookup_lt_is_Some_2 row (Z.to_nat i)) as [x Hx]; [lia|].
    by rewrite Hx.
  - rewrite (proj2 (lookup_ge_None row (Z.to_nat i))) by lia. done.
Qed.

(** For 1-indexed positions, building the key never fails and gives the
    specification's Key. *)
Lemma build_key_Key cols row :
  Forall (λ col, 1 ≤ col) cols →
  build_key ((λ col, col - 1) <$> cols) row = Return (Key cols row).
Proof.
  induction 1 as [|col cols Hcol _ IH]; [done|].
  unfold Key. rewrite !fmap_cons. cbn [build_key].
  rewrite key_field_nonneg by lia. cbn [bind].
  rewrite IH. done.
Qed.

Lemma loop_app col_indices st rows1 rows2 :
  loop col_indices st (rows1 ++ rows2) =
    bind (loop col_indices st rows1) (λ st', loop col_indices st' rows2).
Proof.
  revert st. induction rows1 as [|row rows1 IH]; intros st; [done|].
  simpl. destruct (loop_body col_indices st row) as [st'| |]; simpl; [|done..].
  apply IH.
Qed.

Lemma loop_snoc col_indices st rows row :
  loop col_indices st (rows ++ [row]) =
    bind (loop col_indices st rows) (λ st', loop_body col_indices st' row).
Proof.
  rewrite loop_app. destruct (loop col_indices st rows) as [st'| |]; simpl; [|done..].
  by destruct (loop_body col_indices st' row).
Qed.

(** Each iteration adds exactly one entry to one of the two outputs. *)
Lemma loop_body_lengths col_indices st row st' :
  loop_body col_indices st row = Return st' →
  (length (deduped_rows st') + length (dup_file st')
   = S (length (deduped_rows st) + length (dup_file st)))%nat.
Proof.
  unfold loop_body. destruct (build_key col_indices row) as [key| |]; simpl; [|done..].
  destruct (seen_keys st !! key); intros [= <-]; simpl; rewrite length_app; simpl; lia.
Qed.

Lemma loop_lengths col_indices rows st st' :
  loop col_indices st rows = Return st' →
  (length (deduped_rows st') + length (dup_file st')
   = length (deduped_rows st) + length (dup_file st) + length rows)%nat.
Proof.
  revert st. induction rows as [|row rows IH]; intros st; simpl.
  - intros [= <-]. lia.
  - destruct (loop_body col_indices st row) as [st1| |] eqn:Hb; simpl; [|done..].
    intros Hl. apply IH in Hl. apply loop_body_lengths in Hb. lia.
Qed.

Lemma loop_body_total cols st row :
  Forall (λ col, 1 ≤ col) cols →
  ∃ st', loop_body ((λ col, col - 1) <$> cols) st row = Return st'.
Proof.
  intros Hcols. unfold loop_body. rewrite build_key_Key by done. simpl.
  destruct (seen_keys st !! Key cols row); by eauto.
Qed.

Lemma loop_total cols rows st :
  Forall (λ col, 1 ≤ col) cols →
  ∃ st', loop ((λ col, col - 1) <$> cols) st rows = Return st'.
Proof.
  intros Hcols. revert st. induction rows as [|row rows IH]; intros st; simpl.
  - by eauto.
  - destruct (loop_body_total cols st row Hcols) as [st1 ->]. simpl. apply IH.
Qed.

Lemma first_occurrences_snoc cols rows row :
  first_occurrences cols (rows ++ [row]) =
    first_occurrences cols rows ++
    (if decide (Key cols row ∈ Key cols <$> rows) then [] else [row]).
Proof.
  unfold first_occurrences. rewrite length_app. simpl.
  rewrite Nat.add_1_r, seq_S, omap_app. simpl. f_equal.
  - apply omap_ext_elem. intros i Hi. apply elem_of_seq in Hi.
    rewrite lookup_app_l by lia. rewrite take_app_le by lia. done.
  - rewrite list_lookup_middle by done. simpl.
    rewrite take_app_length. by destruct (decide _).
Qed.

Lemma duplicate_pairs_snoc cols rows row :
  duplicate_pairs cols (rows ++ [row]) =
    duplicate_pairs cols rows ++
    match list_find (λ r, Key cols r = Key cols row) rows with
    | Some orig => [(identity orig.2, identity row)]
    | None => []
    end.
Proof.
  unfold duplicate_pairs. rewrite length_app. simpl.
  rewrite Nat.add_1_r, seq_S, omap_app. simpl. f_equal.
  - apply omap_ext_elem. intros i Hi. apply elem_of_seq in Hi.
    rewrite lookup_app_l by lia. rewrite take_app_le by lia. done.
  - rewrite list_lookup_middle by done. simpl.
    rewrite take_app_length. by destruct (list_find _ rows).
Qed.

Lemma list_find_Key_None cols rows k :
  list_find (λ r, Key cols r = k) rows = None ↔ k ∉ Key cols <$> rows.
Proof.
  rewrite list_find_None, Forall_forall, list_elem_of_fmap. split.
  - intros H (r & -> & Hr). by apply (H r).
  - intros H r Hr Hk. apply H. by exists r.
Qed.

End LoopFacts.

Section LoopInvariants.

Implicit Types (int : string → option Z) (row : Row) (rows : list Row) (st : state).

(** The state after a run from the initial state: the table maps each key
    to the identity of the earliest row carrying it, and the two outputs
    are the first occurrences and the duplicate pairs. *)
Lemma loop_initial_spec cols rows :
  Forall (λ col, 1 ≤ col) cols →
  ∃ seen,
    loop ((λ col, col - 1) <$> cols) initial rows
      = Return (State seen (first_occurrences cols rows) (duplicate_pairs cols rows)) ∧
    ∀ k, seen !! k
         = (λ p : nat * Row, identity p.2) <$> list_find (λ r, Key cols r = k) rows.
Proof.
  intros Hcols. induction rows as [|row rows IH] using rev_ind.
  - exists ∅. split; [done|]. intros k. by rewrite lookup_empty.
  - destruct IH as (seen & Hl & Hseen).
    rewrite loop_snoc, Hl. cbn [bind]. unfold loop_body.
    rewrite build_key_Key by done. cbn [bind seen_keys deduped_rows dup_file].
    rewrite Hseen, first_occurrences_snoc, duplicate_pairs_snoc.
    destruct (list_find (λ r, Key cols r = Key cols row) rows) as [[j orig]|] eqn:Hf;
      cbn [fmap option_fmap option_map snd].
    + exists seen. split.
      * destruct (decide (Key cols row ∈ Key cols <$> rows)) as [_|Hn].
        -- by rewrite app_nil_r.
        -- apply list_find_Key_None in Hn. congruence.
      * intros k. rewrite list_find_snoc, Hseen.
        destruct (list_find (λ r, Key cols r = k) rows) eqn:Hk; [done|].
        destruct (decide _) as [Heq|]; [|done]. simpl in Heq. subst k. congruence.
    + exists (<[Key cols row := identity row]> seen). split.
      * destruct (decide (Key cols row ∈ Key cols <$> rows)) as [Hin|_].
        -- apply list_find_Key_None in Hf. done.
        -- by rewrite app_nil_r.
      * intros k. rewrite list_find_snoc.
        destruct (decide (Key cols row = k)) as [<-|Hne].
        -- by rewrite lookup_insert_eq, Hf.
        -- rewrite lookup_insert_ne, Hseen by done.
           by destruct (list_find (λ r, Key cols r = k) rows).
Qed.

(** The keys of the kept rows are pairwise distinct and are exactly the
    keys of the table. *)
Lemma loop_keys_invariant col_indices rows st st' ks :
  loop col_indices st rows = Return st' →
  Forall2 (λ row k, build_key col_indices row = Return k) (deduped_rows st) ks →
  NoDup ks →
  (∀ k, k ∈ ks ↔ is_Some (seen_keys st !! k)) →
  ∃ ks',
    Forall2 (λ row k, build_key col_indices row = Return k) (deduped_rows st') ks' ∧
    NoDup ks' ∧
    (∀ k, k ∈ ks' ↔ is_Some (seen_keys st' !! k)).
Proof.
  revert st ks. induction rows as [|row rows IH]; intros st ks; simpl.
  - intros [= <-]. by eauto.
  - destruct (loop_body col_indices st row) as [st1| |] eqn:Hb; simpl; [|done..].
    intros Hl HF Hnd Hdom. unfold loop_body in Hb.
    destruct (build_key col_indices row) as [key| |] eqn:Hk; simpl in Hb; [|done..].
    destruct (seen_keys st !! key) as [v|] eqn:Hs; injection Hb as <-.
    + by apply (IH _ ks Hl).
    + apply (IH _ (ks ++ [key]) Hl); simpl.
      * apply Forall2_app; [done|]. by repeat constructor.
      * apply NoDup_app. split_and!; [done| |apply NoDup_singleton].
        intros k Hin ->%list_elem_of_singleton.
        apply Hdom in Hin as [v Hv]. congruence.
      * intros k. rewrite elem_of_app, list_elem_of_singleton, Hdom.
        destruct (decide (key = k)) as [->|Hne].
        -- rewrite lookup_insert_eq. split; [by eauto|]. by right.
        -- rewrite lookup_insert_ne by done. split; [|by left].
           intros [?|?]; [done|congruence].
Qed.

(** Rows with pairwise distinct keys that are not in the table are all
    kept, and nothing is written to the duplicate file. *)
Lemma loop_fresh col_indices d ks st :
  Forall2 (λ row k, build_key col_indices row = Return k) d ks →
  NoDup ks →
  (∀ k, k ∈ ks → seen_keys st !! k = None) →
  ∃ seen',
    loop col_indices st d = Return (State seen' (deduped_rows st ++ d) (dup_file st)).
Proof.
  intros HF. revert st.
  induction HF as [|row k d ks Hk _ IH]; intros st Hnd Hfresh; simpl.
  - exists (seen_keys st). rewrite app_nil_r. by destruct st.
  - apply NoDup_cons in Hnd as [Hnotin Hnd].
    unfold loop_body. rewrite Hk. cbn [bind].
    rewrite (Hfresh k) by left. cbn [bind].
    destruct (IH (State (<[k := identity row]> (seen_keys st))
                        (deduped_rows st ++ [row]) (dup_file st)) Hnd)
      as [seen' Hl].
    + intros k' Hk'. simpl. rewrite lookup_insert_ne by (intros ->; done).
      apply Hfresh. by right.
    + exists seen'. rewrite Hl. simpl. by rewrite <- app_assoc.
Qed.

(** The only exception that escapes [main] is the [OverflowError] of the
    column selection; the loop itself raises nothing. *)
Lemma main_raise int rows r_option c_option e :
  main int rows r_option c_option = Raise e →
  e = OverflowError ∧
  ∃ header rest,
    rows = header :: rest ∧
    parse_columns_options int r_option c_option (Z.of_nat (length header))
      = Raise OverflowError.
Proof.
  unfold main. destruct rows as [|header rows]; [done|].
  destruct (parse_columns_options int r_option c_option (Z.of_nat (length header)))
    as [cols|msg|e'] eqn:Hp; simpl.
  - apply parse_Return_range in Hp as [_ HF].
    assert (Forall (λ col, 1 ≤ col) cols) as Hcols.
    { eapply Forall_impl; [exact HF|]. simpl. intros; lia. }
    unfold Deduplicate.
    destruct (loop_total cols (header :: rows) initial Hcols) as [st' ->]. done.
  - done.
  - intros [= ->].
    assert (e = OverflowError) as ->.
    { unfold parse_columns_options in Hp.
      destruct (candidate_columns int r_option c_option (Z.of_nat (length header)))
        as [columns| |e''] eqn:Hc; simpl in Hp.
      - by destruct (valid_columns _ columns).
      - done.
      - apply candidate_raise in Hc as [-> _]. by injection Hp as <-. }
    split; [done|]. by exists header, rows.
Qed.

End LoopInvariants.

(** ** Claims about the deduplication loop *)

Section DedupClaims.

Implicit Types (row : Row) (rows : list Row) (st : state).

(** C1. For 1-indexed column positions, the loop handles the rows in input
    order, one after the other; for each row it builds the Key; if the Key
    is in the table with value [v], the pair [(v, identity row)] is
    appended to the duplicate file and the row is dropped; otherwise the
    table gets [Key := identity row] and the row is appended unchanged to
    the kept rows; [identity row] is the first field, or the empty string
    for a row without fields.  Consequently the kept rows are the rows
    whose Key did not occur at an earlier position, in input order, and
    the duplicate file pairs every other row with the earliest row of the
    same Key. *)
Theorem Deduplicate_first_occurrences rows cols :
  Forall (λ col, 1 ≤ col) cols →
  let col_indices := (λ col, col - 1) <$> cols in
  (∀ st row,
     loop col_indices st (rows ++ [row])
     = bind (loop col_indices st rows) (λ st', loop_body col_indices st' row)) ∧
  (∀ st row,
     loop_body col_indices st row =
       match seen_keys st !! Key cols row with
       | Some v =>
           Return (State (seen_keys st) (deduped_rows st)
                         (dup_file st ++ [(v, identity row)]))
       | None =>
           Return (State (<[Key cols row := identity row]> (seen_keys st))
                         (deduped_rows st ++ [row]) (dup_file st))
       end) ∧
  (∀ row, identity row = match row with [] => EmptyString | x :: _ => x end) ∧
  Deduplicate rows cols
    = Return (first_occurrences cols rows, duplicate_pairs cols rows).
Proof.
  intros Hcols col_indices. split_and!.
  - intros st row. apply loop_snoc.
  - intros st row. unfold loop_body, col_indices.
    rewrite build_key_Key by done. cbn [bind].
    by destruct (seen_keys st !! Key cols row).
  - by intros [|x row].
  - unfold Deduplicate.
    destruct (loop_initial_spec cols rows Hcols) as (seen & -> & _). done.
Qed.

Lemma Deduplicate_first_occurrences_witness :
  Deduplicate [["a"; "1"]; ["b"; "2"]; ["a"; "1"]; ["c"; "3"]; ["a"; "9"]]%string [1]
  = Return (first_occurrences [1]
              [["a"; "1"]; ["b"; "2"]; ["a"; "1"]; ["c"; "3"]; ["a"; "9"]]%string,
            duplicate_pairs [1]
              [["a"; "1"]; ["b"; "2"]; ["a"; "1"]; ["c"; "3"]; ["a"; "9"]]%string).
Proof.
  apply (Deduplicate_first_occurrences
           [["a"; "1"]; ["b"; "2"]; ["a"; "1"]; ["c"; "3"]; ["a"; "9"]]%string [1]).
  repeat constructor. lia.
Defined.

(** C3. For 1-indexed column positions and every sequence of rows,
    [Deduplicate] returns, and the number of kept rows plus the number of
    duplicate pairs is the number of input rows. *)
Theorem Deduplicate_output_lengths rows cols :
  Forall (λ col, 1 ≤ col) cols →
  ∃ deduped pairs,
    Deduplicate rows cols = Return (deduped, pairs) ∧
    (length deduped + length pairs = length rows)%nat.
Proof.
  intros Hcols. unfold Deduplicate.
  destruct (loop_total cols rows initial Hcols) as [st' Hl].
  exists (deduped_rows st'), (dup_file st'). rewrite Hl. split; [done|].
  apply loop_lengths in Hl. simpl in Hl. lia.
Qed.

Lemma Deduplicate_output_lengths_witness :
  ∃ deduped pairs,
    Deduplicate [["a"; "1"]; ["b"; "2"]; ["a"; "7"]]%string [1; 1] = Return (deduped, pairs) ∧
    (length deduped + length pairs = 3)%nat.
Proof.
  apply (Deduplicate_output_lengths [["a"; "1"]; ["b"; "2"]; ["a"; "7"]]%string [1; 1]).
  repeat constructor; lia.
Defined.

(** C6. For 1-indexed column positions, [Deduplicate] returns for every
    sequence of rows, rows without fields included: building a key never
    fails, and a position beyond the row's field count contributes the
    empty string; row ["x"] with columns [1; 2] has Key ("x", ""). *)
Theorem Deduplicate_total rows cols :
  Forall (λ col, 1 ≤ col) cols →
  (∃ out, Deduplicate rows cols = Return out) ∧
  (∀ row, build_key ((λ col, col - 1) <$> cols) row = Return (Key cols row)) ∧
  (∀ row (i : nat) col,
     cols !! i = Some col → Z.of_nat (length row) < col →
     Key cols row !! i = Some EmptyString) ∧
  build_key ((λ col, col - 1) <$> [1; 2]) ["x"%string] = Return ["x"; ""]%string.
Proof.
  intros Hcols. split_and!.
  - unfold Deduplicate.
    destruct (loop_total cols rows initial Hcols) as [st' ->]. by eauto.
  - intros row. by apply build_key_Key.
  - intros row i col Hi Hlen. unfold Key. rewrite list_lookup_fmap, Hi. simpl.
    rewrite (proj2 (lookup_ge_None row (Z.to_nat (col - 1)))) by lia. done.
  - reflexivity.
Qed.

Lemma Deduplicate_total_witness :
  ∃ out, Deduplicate [[]; ["x"]; []; ["x"; "y"]]%string [1; 2] = Return out.
Proof.
  apply (Deduplicate_total [[]; ["x"]; []; ["x"; "y"]]%string [1; 2]).
  repeat constructor; lia.
Defined.

(** C7. Whenever [Deduplicate rows cols] returns [(deduped, pairs)],
    running it again on [deduped] with the same columns returns
    [(deduped, [])]: the kept rows are unchanged and the duplicate file
    stays empty. *)
Theorem Deduplicate_idempotent rows cols deduped pairs :
  Deduplicate rows cols = Return (deduped, pairs) →
  Deduplicate deduped cols = Return (deduped, []).
Proof.
  unfold Deduplicate. set (col_indices := (λ col, col - 1) <$> cols).
  destruct (loop col_indices initial rows) as [st'| |] eqn:Hl; simpl; [|done..].
  intros [= <- <-].
  destruct (loop_keys_invariant col_indices rows initial st' [] Hl)
    as (ks & HF & Hnd & _).
  - constructor.
  - constructor.
  - intros k. simpl. rewrite lookup_empty. split.
    + by intros ?%not_elem_of_nil.
    + by intros [? ?].
  - destruct (loop_fresh col_indices (deduped_rows st') ks initial HF Hnd)
      as [seen' ->]; [|done].
    intros k _. apply lookup_empty.
Qed.

Lemma Deduplicate_idempotent_witness :
  Deduplicate [["a"; "1"]; ["b"; "2"]; ["c"; "3"]]%string [1]
  = Return ([["a"; "1"]; ["b"; "2"]; ["c"; "3"]]%string, []).
Proof.
  apply (Deduplicate_idempotent
           [["a"; "1"]; ["b"; "2"]; ["a"; "1"]; ["c"; "3"]; ["a"; "9"]]%string [1]
           [["a"; "1"]; ["b"; "2"]; ["c"; "3"]]%string
           [("a", "a"); ("a", "a")]%string).
  vm_compute. reflexivity.
Defined.

End DedupClaims.

(** ** Further properties of the outputs *)

Section OutputFacts.

Implicit Types (row : Row) (rows : list Row) (st : state).

Lemma first_occurrences_nil cols : first_occurrences cols [] = [].
Proof. done. Qed.

Lemma duplicate_pairs_nil cols : duplicate_pairs cols [] = [].
Proof. done. Qed.

Lemma first_occurrences_sublist cols rows :
  first_occurrences cols rows `sublist_of` rows.
Proof.
  induction rows as [|row rows IH] using rev_ind; [done|].
  rewrite first_occurrences_snoc. apply sublist_app; [done|].
  destruct (decide _); [apply sublist_nil_l|done].
Qed.

Lemma first_occurrences_keys cols rows k :
  k ∈ Key cols <$> first_occurrences cols rows ↔ k ∈ Key cols <$> rows.
Proof.
  induction rows as [|row rows IH] using rev_ind; [done|].
  rewrite first_occurrences_snoc, !fmap_app, !elem_of_app, IH.
  destruct (decide (Key cols row ∈ Key cols <$> rows)) as [Hin|Hn]; [|done].
  simpl. rewrite list_elem_of_singleton. split.
  - intros [?|?%not_elem_of_nil]; [by left|done].
  - intros [?| ->]; by left.
Qed.

Lemma first_occurrences_NoDup cols rows :
  NoDup (Key cols <$> first_occurrences cols rows).
Proof.
  induction rows as [|row rows IH] using rev_ind; [constructor|].
  rewrite first_occurrences_snoc, fmap_app.
  destruct (decide (Key cols row ∈ Key cols <$> rows)) as [Hin|Hn].
  - by rewrite app_nil_r.
  - apply NoDup_app. split_and!; [done| |apply NoDup_singleton].
    intros k Hk ->%list_elem_of_singleton. apply Hn.
    by apply (proj1 (first_occurrences_keys cols rows (Key cols row))).
Qed.

(** The earliest row with a given key is kept. *)
Lemma first_occurrences_find cols rows k j orig :
  list_find (λ r, Key cols r = k) rows = Some (j, orig) →
  orig ∈ first_occurrences cols rows.
Proof.
  revert j orig. induction rows as [|row rows IH] using rev_ind; [done|].
  intros j orig. rewrite list_find_snoc, first_occurrences_snoc, elem_of_app.
  destruct (list_find (λ r, Key cols r = k) rows) as [[j' orig']|] eqn:Hf.
  - intros [= -> ->]. left. by eapply IH.
  - destruct (decide _) as [Hk|]; [|done]. simpl in Hk. intros [= <- <-]. right.
    apply list_find_Key_None in Hf. subst k.
    rewrite decide_False by done. by apply list_elem_of_singleton.
Qed.

(** Every duplicate pair joins a kept row and a later input row with the
    same key. *)
Lemma duplicate_pairs_elem cols rows a b :
  (a, b) ∈ duplicate_pairs cols rows →
  ∃ orig dup,
    orig ∈ first_occurrences cols rows ∧ dup ∈ rows ∧
    Key cols orig = Key cols dup ∧ a = identity orig ∧ b = identity dup.
Proof.
  induction rows as [|row rows IH] using rev_ind; [by intros ?%not_elem_of_nil|].
  rewrite duplicate_pairs_snoc, first_occurrences_snoc. intros [Hin|Hin]%elem_of_app.
  - destruct (IH Hin) as (orig & dup & Ho & Hd & Hk & -> & ->).
    exists orig, dup. rewrite !elem_of_app. by eauto 10.
  - destruct (list_find (λ r, Key cols r = Key cols row) rows) as [[j orig]|] eqn:Hf;
      [|by apply not_elem_of_nil in Hin].
    apply list_elem_of_singleton in Hin as [= -> ->].
    exists orig, row. rewrite !elem_of_app. split_and!; [|by right; left| |done..].
    + left. by eapply first_occurrences_find.
    + by apply list_find_Some in Hf as (_ & ? & _).
Qed.

(** Two rows with the same key agree on every selected field. *)
Lemma Key_eq_iff cols row1 row2 :
  Key cols row1 = Key cols row2 ↔
  ∀ col, col ∈ cols →
    default EmptyString (row1 !! Z.to_nat (col - 1))
    = default EmptyString (row2 !! Z.to_nat (col - 1)).
Proof.
  unfold Key. induction cols as [|c cols IH]; simpl.
  - split; [|done]. by intros _ col ?%not_elem_of_nil.
  - split.
    + intros [= Hc Hrest] col [->|Hin]%elem_of_cons; [done|]. by apply IH.
    + intros H. f_equal.
      * apply H. by left.
      * apply IH. intros col Hin. apply H. by right.
Qed.

(** The outputs depend on the columns only through the relation "same
    key" that they induce on rows. *)
Lemma outputs_same_relation cols cols' rows :
  (∀ row1 row2, Key cols row1 = Key cols row2 ↔ Key cols' row1 = Key cols' row2) →
  first_occurrences cols rows = first_occurrences cols' rows ∧
  duplicate_pairs cols rows = duplicate_pairs cols' rows.
Proof.
  intros Hrel. split.
  - apply omap_ext_elem. intros i _.
    destruct (rows !! i) as [row|]; simpl; [|done].
    assert (Key cols row ∈ Key cols <$> take i rows
            ↔ Key cols' row ∈ Key cols' <$> take i rows) as Hiff.
    { rewrite !list_elem_of_fmap.
      split; intros (r & Hk & Hr); exists r; (split; [|done]); by apply Hrel. }
    destruct (decide _) as [H1|H1], (decide _) as [H2|H2]; try done;
      by apply Hiff in H1 || apply Hiff in H2.
  - apply omap_ext_elem. intros i _.
    destruct (rows !! i) as [row|]; simpl; [|done].
    rewrite (list_find_ext (λ r, Key cols r = Key cols row)
                           (λ r, Key cols' r = Key cols' row)); [done|].
    intros r. apply Hrel.
Qed.

Lemma omap_sublist {A B} (f g : A → option B) (l : list A) :
  (∀ x y, x ∈ l → f x = Some y → g x = Some y) →
  omap f l `sublist_of` omap g l.
Proof.
  induction l as [|x l IH]; intros Hfg; [done|].
  change (omap f (x :: l)) with
    (match f x with Some y => y :: omap f l | None => omap f l end).
  change (omap g (x :: l)) with
    (match g x with Some y => y :: omap g l | None => omap g l end).
  assert (omap f l `sublist_of` omap g l) as Hs.
  { apply IH. intros y z Hy. apply Hfg. by right. }
  destruct (f x) as [y|] eqn:Hf.
  - rewrite (Hfg x y) by (done || by left). by apply sublist_skip.
  - destruct (g x); [by apply sublist_cons|done].
Qed.

End OutputFacts.

Section DedupFurther.

Implicit Types (row : Row) (rows : list Row) (st : state).

Lemma Deduplicate_outputs cols rows :
  Forall (λ col, 1 ≤ col) cols →
  Deduplicate rows cols = Return (first_occurrences cols rows, duplicate_pairs cols rows).
Proof.
  intros Hcols. unfold Deduplicate.
  by destruct (loop_initial_spec cols rows Hcols) as (seen & -> & _).
Qed.

(** The loop only appends to its two outputs. *)
Lemma loop_body_prefix col_indices st row st' :
  loop_body col_indices st row = Return st' →
  deduped_rows st `prefix_of` deduped_rows st' ∧ dup_file st `prefix_of` dup_file st'.
Proof.
  unfold loop_body. destruct (build_key col_indices row) as [key| |]; simpl; [|done..].
  destruct (seen_keys st !! key); intros [= <-]; simpl; split;
    done || by apply prefix_app_r.
Qed.

Lemma loop_prefix col_indices rows st st' :
  loop col_indices st rows = Return st' →
  deduped_rows st `prefix_of` deduped_rows st' ∧ dup_file st `prefix_of` dup_file st'.
Proof.
  revert st. induction rows as [|row rows IH]; intros st; simpl.
  - by intros [= <-].
  - destruct (loop_body col_indices st row) as [st1| |] eqn:Hb; simpl; [|done..].
    intros Hl. apply IH in Hl as [Hd Hp]. apply loop_body_prefix in Hb as [Hd1 Hp1].
    split; by etrans.
Qed.

(** The kept rows are taken from the input in input order, no two of them
    have the same key, and every input row has the key of a kept row. *)
Theorem kept_rows_represent_input rows cols :
  Forall (λ col, 1 ≤ col) cols →
  ∃ deduped pairs,
    Deduplicate rows cols = Return (deduped, pairs) ∧
    deduped `sublist_of` rows ∧
    NoDup (Key cols <$> deduped) ∧
    ∀ row, row ∈ rows → ∃ kept, kept ∈ deduped ∧ Key cols kept = Key cols row.
Proof.
  intros Hcols.
  exists (first_occurrences cols rows), (duplicate_pairs cols rows).
  split_and!.
  - by apply Deduplicate_outputs.
  - apply first_occurrences_sublist.
  - apply first_occurrences_NoDup.
  - intros row Hrow.
    assert (Key cols row ∈ Key cols <$> first_occurrences cols rows) as Hin.
    { apply first_occurrences_keys, list_elem_of_fmap. by exists row. }
    apply list_elem_of_fmap in Hin as (kept & Hk & Hin). by exists kept.
Qed.

Lemma kept_rows_represent_input_witness :
  ∃ deduped pairs,
    Deduplicate [["a"; "1"]; ["b"; "2"]; ["a"; "3"]]%string [1] = Return (deduped, pairs) ∧
    deduped `sublist_of` [["a"; "1"]; ["b"; "2"]; ["a"; "3"]]%string ∧
    NoDup (Key [1] <$> deduped) ∧
    ∀ row, row ∈ [["a"; "1"]; ["b"; "2"]; ["a"; "3"]]%string →
      ∃ kept, kept ∈ deduped ∧ Key [1] kept = Key [1] row.
Proof.
  apply (kept_rows_represent_input [["a"; "1"]; ["b"; "2"]; ["a"; "3"]]%string [1]).
  repeat constructor; lia.
Defined.

Lemma first_row_kept_aux row rest cols deduped pairs :
  Deduplicate (row :: rest) cols = Return (deduped, pairs) →
  ∃ deduped', deduped = row :: deduped'.
Proof.
  unfold Deduplicate. set (col_indices := (λ col, col - 1) <$> cols).
  cbn [loop]. unfold loop_body.
  destruct (build_key col_indices row) as [key| |]; simpl; [|done..].
  rewrite lookup_empty. cbn [bind].
  destruct (loop col_indices _ rest) as [st'| |] eqn:Hl; simpl; [|done..].
  intros [= <- <-]. apply loop_prefix in Hl as [[k Hk] _]. simpl in Hk.
  exists k. by rewrite Hk.
Qed.

(** The first input row is always kept, as the first kept row: the header
    line of the file is never dropped. *)
Theorem first_row_kept row rest cols deduped pairs :
  Deduplicate (row :: rest) cols = Return (deduped, pairs) →
  ∃ deduped', deduped = row :: deduped'.
Proof. apply first_row_kept_aux. Qed.

Lemma first_row_kept_witness :
  ∃ deduped', [["id"; "v"]; ["1"; "x"]]%string = ["id"; "v"]%string :: deduped'.
Proof.
  apply (first_row_kept ["id"; "v"]%string [["1"; "x"]; ["id"; "w"]]%string [1]
           [["id"; "v"]; ["1"; "x"]]%string [("id", "id")]%string).
  vm_compute. reflexivity.
Defined.

Lemma distinct_keys_outputs cols rows :
  NoDup (Key cols <$> rows) →
  first_occurrences cols rows = rows ∧ duplicate_pairs cols rows = [].
Proof.
  induction rows as [|row rows IH] using rev_ind; [done|].
  rewrite fmap_app. intros (Hnd & Hnotin & _)%NoDup_app.
  destruct (IH Hnd) as [Hf Hp].
  assert (Key cols row ∉ Key cols <$> rows) as Hn.
  { intros Hin. apply (Hnotin _ Hin). by apply list_elem_of_singleton. }
  rewrite first_occurrences_snoc, duplicate_pairs_snoc, Hf, Hp.
  rewrite decide_False by done.
  by rewrite (proj2 (list_find_Key_None cols rows (Key cols row)) Hn).
Qed.

(** The input comes back unchanged, with an empty duplicate log, exactly
    when no two input rows have the same key. *)
Theorem unchanged_iff_distinct_keys rows cols :
  Forall (λ col, 1 ≤ col) cols →
  (Deduplicate rows cols = Return (rows, []) ↔ NoDup (Key cols <$> rows)).
Proof.
  intros Hcols. rewrite Deduplicate_outputs by done. split.
  - intros [= Hf _]. rewrite <- Hf. apply first_occurrences_NoDup.
  - intros Hnd. by destruct (distinct_keys_outputs cols rows Hnd) as [-> ->].
Qed.

Lemma unchanged_iff_distinct_keys_witness :
  Deduplicate [["a"; "1"]; ["b"; "1"]]%string [1] = Return ([["a"; "1"]; ["b"; "1"]]%string, [])
  ↔ NoDup (Key [1] <$> [["a"; "1"]; ["b"; "1"]]%string).
Proof.
  apply (unchanged_iff_distinct_keys [["a"; "1"]; ["b"; "1"]]%string [1]).
  repeat constructor; lia.
Defined.

(** Every record of the duplicate log holds the first field of a kept row
    and the first field of an input row with the same key. *)
Theorem pairs_join_kept_and_input rows cols deduped pairs :
  Forall (λ col, 1 ≤ col) cols →
  Deduplicate rows cols = Return (deduped, pairs) →
  Forall (λ p : string * string,
            ∃ orig dup,
              orig ∈ deduped ∧ dup ∈ rows ∧ Key cols orig = Key cols dup ∧
              p.1 = identity orig ∧ p.2 = identity dup)
         pairs.
Proof.
  intros Hcols. rewrite Deduplicate_outputs by done. intros [= <- <-].
  apply Forall_forall. intros [a b] Hab. by apply duplicate_pairs_elem.
Qed.

Lemma pairs_join_kept_and_input_witness :
  Forall (λ p : string * string,
            ∃ orig dup,
              orig ∈ [["a"; "1"]; ["b"; "2"]]%string ∧
              dup ∈ [["a"; "1"]; ["b"; "2"]; ["a"; "3"]]%string ∧
              Key [1] orig = Key [1] dup ∧
              p.1 = identity orig ∧ p.2 = identity dup)
         [("a", "a")]%string.
Proof.
  apply (pairs_join_kept_and_input [["a"; "1"]; ["b"; "2"]; ["a"; "3"]]%string [1]).
  - repeat constructor; lia.
  - vm_compute. reflexivity.
Defined.

(** When column 1 is among the selected columns, both fields of every
    record of the duplicate log are equal. *)
Theorem pairs_equal_when_first_column_selected rows cols deduped pairs :
  Forall (λ col, 1 ≤ col) cols →
  1 ∈ cols →
  Deduplicate rows cols = Return (deduped, pairs) →
  Forall (λ p : string * string, p.1 = p.2) pairs.
Proof.
  intros Hcols H1. rewrite Deduplicate_outputs by done. intros [= <- <-].
  apply Forall_forall. intros [a b] Hab.
  apply duplicate_pairs_elem in Hab as (orig & dup & _ & _ & Hk & -> & ->).
  simpl. rewrite !identity_head.
  pose proof (proj1 (Key_eq_iff cols orig dup) Hk 1 H1) as Hf. simpl in Hf.
  by rewrite <- !head_lookup in Hf.
Qed.

Lemma pairs_equal_when_first_column_selected_witness :
  Forall (λ p : string * string, p.1 = p.2) [("a", "a")]%string.
Proof.
  apply (pairs_equal_when_first_column_selected
           [["a"; "1"]; ["b"; "2"]; ["a"; "3"]]%string [1]
           [["a"; "1"]; ["b"; "2"]]%string).
  - repeat constructor; lia.
  - by left.
  - vm_compute. reflexivity.
Defined.

End DedupFurther.

Section DedupComposition.

Implicit Types (row : Row) (rows : list Row) (st : state).

Lemma Deduplicate_lengths rows cols deduped pairs :
  Deduplicate rows cols = Return (deduped, pairs) →
  (length deduped + length pairs = length rows)%nat.
Proof.
  unfold Deduplicate.
  destruct (loop _ initial rows) as [st'| |] eqn:Hl; simpl; [|done..].
  intros [= <- <-]. apply loop_lengths in Hl. simpl in Hl. lia.
Qed.

(** Reading more rows only extends the outputs: the outputs for a prefix
    of the input are prefixes of the outputs for the whole input. *)
Theorem Deduplicate_prefix rows1 rows2 cols deduped pairs :
  Deduplicate (rows1 ++ rows2) cols = Return (deduped, pairs) →
  ∃ deduped1 pairs1,
    Deduplicate rows1 cols = Return (deduped1, pairs1) ∧
    deduped1 `prefix_of` deduped ∧ pairs1 `prefix_of` pairs.
Proof.
  unfold Deduplicate. set (col_indices := (λ col, col - 1) <$> cols).
  rewrite loop_app.
  destruct (loop col_indices initial rows1) as [st1| |]; simpl; [|done..].
  destruct (loop col_indices st1 rows2) as [st'| |] eqn:Hl; simpl; [|done..].
  intros [= <- <-]. exists (deduped_rows st1), (dup_file st1).
  split; [done|]. by apply loop_prefix in Hl.
Qed.

Lemma Deduplicate_prefix_witness :
  ∃ deduped1 pairs1,
    Deduplicate [["a"]; ["a"]]%string [1] = Return (deduped1, pairs1) ∧
    deduped1 `prefix_of` [["a"]; ["b"]]%string ∧
    pairs1 `prefix_of` [("a", "a"); ("b", "b")]%string.
Proof.
  apply (Deduplicate_prefix [["a"]; ["a"]]%string [["b"]; ["b"]]%string [1]).
  vm_compute. reflexivity.
Defined.

(** The outputs depend only on which columns are selected, not on their
    order or repetition in the list. *)
Theorem Deduplicate_column_set rows cols cols' :
  Forall (λ col, 1 ≤ col) cols →
  Forall (λ col, 1 ≤ col) cols' →
  (∀ col, col ∈ cols ↔ col ∈ cols') →
  Deduplicate rows cols = Deduplicate rows cols'.
Proof.
  intros Hcols Hcols' Hset. rewrite !Deduplicate_outputs by done.
  destruct (outputs_same_relation cols cols' rows) as [-> ->]; [|done].
  intros row1 row2. rewrite !Key_eq_iff.
  split; intros H col Hin; apply H; by apply Hset.
Qed.

Lemma Deduplicate_column_set_witness :
  Deduplicate [["a"; "1"]; ["a"; "2"]; ["a"; "1"]]%string [2; 1; 2]
  = Deduplicate [["a"; "1"]; ["a"; "2"]; ["a"; "1"]]%string [1; 2].
Proof.
  apply (Deduplicate_column_set [["a"; "1"]; ["a"; "2"]; ["a"; "1"]]%string
           [2; 1; 2] [1; 2]).
  - repeat constructor; lia.
  - repeat constructor; lia.
  - intros col. rewrite !elem_of_cons. pose proof (not_elem_of_nil col). tauto.
Defined.

(** Selecting more columns never drops a row that fewer columns keep: the
    kept rows for the smaller selection are among the kept rows for the
    larger one, and the larger selection logs at most as many duplicates. *)
Theorem more_columns_keep_more rows cols cols' :
  Forall (λ col, 1 ≤ col) cols →
  Forall (λ col, 1 ≤ col) cols' →
  (∀ col, col ∈ cols → col ∈ cols') →
  ∃ deduped pairs deduped' pairs',
    Deduplicate rows cols = Return (deduped, pairs) ∧
    Deduplicate rows cols' = Return (deduped', pairs') ∧
    deduped `sublist_of` deduped' ∧
    (length pairs' ≤ length pairs)%nat.
Proof.
  intros Hcols Hcols' Hsub.
  exists (first_occurrences cols rows), (duplicate_pairs cols rows),
         (first_occurrences cols' rows), (duplicate_pairs cols' rows).
  pose proof (Deduplicate_outputs cols rows Hcols) as H1.
  pose proof (Deduplicate_outputs cols' rows Hcols') as H2.
  assert (first_occurrences cols rows `sublist_of` first_occurrences cols' rows) as Hs.
  { apply omap_sublist. intros i row _.
    destruct (rows !! i) as [r|]; simpl; [|done].
    destruct (decide (Key cols r ∈ _)) as [|Hn]; [done|]. intros [= <-].
    rewrite decide_False; [done|]. intros Hin. apply Hn.
    apply list_elem_of_fmap in Hin as (r' & Hk & Hr').
    apply list_elem_of_fmap. exists r'. split; [|done].
    apply Key_eq_iff. intros col Hcol.
    apply (proj1 (Key_eq_iff cols' r r') Hk). by apply Hsub. }
  split_and!; [done..|].
  apply Deduplicate_lengths in H1. apply Deduplicate_lengths in H2.
  apply sublist_length in Hs. lia.
Qed.

Lemma more_columns_keep_more_witness :
  ∃ deduped pairs deduped' pairs',
    Deduplicate [["a"; "1"]; ["a"; "2"]; ["a"; "1"]]%string [1] = Return (deduped, pairs) ∧
    Deduplicate [["a"; "1"]; ["a"; "2"]; ["a"; "1"]]%string [1; 2] = Return (deduped', pairs') ∧
    deduped `sublist_of` deduped' ∧
    (length pairs' ≤ length pairs)%nat.
Proof.
  apply (more_columns_keep_more [["a"; "1"]; ["a"; "2"]; ["a"; "1"]]%string [1] [1; 2]).
  - repeat constructor; lia.
  - repeat constructor; lia.
  - intros col ->%list_elem_of_singleton. by left.
Defined.

Lemma lookup_padded row (n i : nat) :
  default EmptyString ((row ++ replicate n EmptyString) !! i)
  = default EmptyString (row !! i).
Proof.
  destruct (decide (i < length row)%nat) as [Hlt|Hge].
  - by rewrite lookup_app_l.
  - rewrite lookup_app_r by lia.
    rewrite (proj2 (lookup_ge_None row i)) by lia. simpl.
    destruct (decide (i - length row < n)%nat) as [Hin|Hout].
    + by rewrite lookup_replicate_2.
    + rewrite (proj2 (lookup_ge_None _ _)); [done|]. rewrite length_replicate. lia.
Qed.

(** A row is not told apart from the same row with empty fields added at
    its end: both have the same key and the same first field, so the
    second of them is logged as a duplicate of the first. *)
Theorem trailing_empty_fields row (n : nat) cols :
  Forall (λ col, 1 ≤ col) cols →
  let padded := row ++ replicate n EmptyString in
  Key cols padded = Key cols row ∧
  identity padded = identity row ∧
  Deduplicate [row; padded] cols = Return ([row], [(identity row, identity row)]).
Proof.
  intros Hcols padded.
  assert (Key cols padded = Key cols row) as HK.
  { apply Key_eq_iff. intros col _. apply lookup_padded. }
  assert (identity padded = identity row) as HI.
  { rewrite !identity_head, !head_lookup. apply lookup_padded. }
  split_and!; [done..|].
  unfold Deduplicate. cbn [loop]. unfold loop_body.
  rewrite !build_key_Key by done. cbn [bind initial seen_keys deduped_rows dup_file].
  rewrite lookup_empty. cbn [bind seen_keys deduped_rows dup_file].
  rewrite HK, lookup_insert_eq, HI. done.
Qed.

Lemma trailing_empty_fields_witness :
  Deduplicate [["x"]; ["x"; ""; ""]]%string [1; 2]
  = Return ([["x"]]%string, [(identity ["x"]%string, identity ["x"]%string)]).
Proof.
  apply (trailing_empty_fields ["x"%string] 2 [1; 2]).
  repeat constructor; lia.
Defined.

End DedupComposition.

(** ** Further properties of the column selector *)

Section SelectorFurther.

Implicit Types (int : string → option Z) (r : string) (c w : Z).

(** The in-range part of a run of consecutive integers is the run clamped
    to [1, total_columns]. *)
Lemma valid_columns_seqZ w start c :
  valid_columns w (seqZ start c)
  = seqZ (Z.max start 1) (Z.min (start + c) (w + 1) - Z.max start 1).
Proof.
  remember (Z.to_nat c) as n eqn:Hn. revert start c Hn.
  induction n as [|n IH]; intros start c Hn.
  - rewrite !seqZ_nil by lia. done.
  - rewrite (seqZ_cons start c) by lia. unfold valid_columns in *.
    rewrite filter_cons, (IH (Z.succ start) (Z.pred c)) by lia.
    destruct (decide (1 ≤ start ≤ w)) as [Hin|Hout].
    + rewrite (seqZ_cons (Z.max start 1)) by lia.
      f_equal; [lia|]. f_equal; lia.
    + destruct (decide (start < 1)) as [Hlow|Hhigh].
      * f_equal; lia.
      * rewrite !seqZ_nil by lia. done.
Qed.




(** Without [-r] and [-c], every column of a table with at least one
    column is selected, in order; for a table without columns the selector
    exits.  (A width is the length of a row, hence at most [sys.maxsize];
    called with a larger number the selector ends in [OverflowError].) *)
Theorem no_options_select_all int ro w :
  truthy ro = None →
  (1 ≤ w ≤ maxsize → parse_columns_options int ro None w = Return (seqZ 1 w)) ∧
  (w ≤ 0 → parse_columns_options int ro None w = SysExit no_valid_columns_msg) ∧
  (maxsize < w → parse_columns_options int ro None w = Raise OverflowError).
Proof.
  intros Hro. pose proof maxsize_positive as Hmax.
  pose proof (candidate_all int ro w Hro) as Hcand.
  split_and!; intros Hw.
  - rewrite range_count in Hcand by lia.
    rewrite (parse_of_candidates int _ _ _ _ Hcand), valid_columns_seqZ.
    replace (Z.max 1 1) with 1 by lia.
    replace (Z.min (1 + w) (w + 1) - 1) with w by lia.
    rewrite (seqZ_cons 1 w) by lia. done.
  - rewrite range_count in Hcand by lia.
    rewrite (parse_of_candidates int _ _ _ _ Hcand), valid_columns_seqZ.
    by rewrite seqZ_nil by lia.
  - rewrite range_overflow in Hcand by done. by apply parse_of_raise.
Qed.

Lemma no_options_select_all_witness :
  parse_columns_options read_decimal (Some ""%string) None 3 = Return (seqZ 1 3).
Proof.
  apply (no_options_select_all read_decimal (Some ""%string) 3); [reflexivity|].
  unfold maxsize. lia.
Defined.

(** A [-r] value that starts with a hyphen is always refused with the
    invalid-integer message, with or without a count: a negative column
    number cannot be written.  (The piece before the hyphen is the empty
    string, which [int] refuses.) *)
Theorem leading_hyphen_refused int s co w :
  int EmptyString = None →
  parse_columns_options int (Some (String "-" s)) co w = SysExit invalid_integer_msg.
Proof.
  intros Hempty. apply parse_of_exit.
  destruct (str_split_cons "-" s) as (t & ts & Hs).
  assert (str_split "-" (String "-" s) = EmptyString :: t :: ts) as Hsplit.
  { simpl. by rewrite Hs. }
  assert (String "-" s ≠ EmptyString) as Hne by done.
  destruct co as [c|].
  - by rewrite (candidate_both int _ c w _ _ Hne Hsplit), Hempty.
  - rewrite candidate_list by done. rewrite Hsplit. cbn [mapM].
    by rewrite Hempty.
Qed.

Lemma leading_hyphen_refused_witness :
  parse_columns_options read_decimal (Some "-2"%string) (Some 3) 10
  = SysExit invalid_integer_msg.
Proof.
  apply (leading_hyphen_refused read_decimal "2" (Some 3) 10). reflexivity.
Defined.

End SelectorFurther.

(** ** Properties of [main] from the rows read to the two outputs *)

Section MainFurther.

Implicit Types (int : string → option Z) (row : Row) (rows : list Row).

Lemma resolved_positive int ro co w cols :
  parse_columns_options int ro co w = Return cols → Forall (λ col, 1 ≤ col) cols.
Proof.
  intros [_ HF]%parse_Return_range. eapply Forall_impl; [exact HF|].
  simpl. intros; lia.
Qed.






Lemma outputs_fmap cols (f : Row → Row) rows :
  (∀ row, Key cols (f row) = Key cols row) →
  (∀ row, identity (f row) = identity row) →
  first_occurrences cols (f <$> rows) = f <$> first_occurrences cols rows ∧
  duplicate_pairs cols (f <$> rows) = duplicate_pairs cols rows.
Proof.
  intros HK HI.
  assert (∀ l : list Row, Key cols <$> (f <$> l) = Key cols <$> l) as Hkeys.
  { intros l. rewrite <- list_fmap_compose. apply list_fmap_ext.
    intros i x _. apply HK. }
  induction rows as [|row rows [IHf IHp]] using rev_ind; [done|].
  rewrite fmap_app. cbn [fmap list_fmap].
  rewrite !first_occurrences_snoc, !duplicate_pairs_snoc, IHf, IHp, fmap_app.
  rewrite Hkeys, HK. split.
  - f_equal. by destruct (decide _).
  - f_equal. rewrite list_find_fmap, HI.
    rewrite (list_find_ext _ (λ r, Key cols r = Key cols row)).
    2:{ intros r. simpl. by rewrite HK. }
    destruct (list_find _ rows) as [[j orig]|]; simpl; [|done]. by rewrite HI.
Qed.

(** Fields beyond the width of the first row play no part: cutting every
    row to that width gives the same kept rows, cut in the same way, and
    the same duplicate log. *)
Theorem main_ignores_fields_beyond_header int header rest ro co deduped pairs :
  let w := length header in
  main int (header :: rest) ro co = Return (deduped, pairs) →
  main int (take w <$> header :: rest) ro co = Return (take w <$> deduped, pairs).
Proof.
  intros w. unfold main. rewrite fmap_cons.
  replace (take w header) with header by (symmetry; by apply take_ge).
  destruct (parse_columns_options int ro co (Z.of_nat (length header)))
    as [cols| |] eqn:Hp; simpl; [|done..].
  pose proof (resolved_positive _ _ _ _ _ Hp) as Hcols.
  apply parse_Return_range in Hp as [Hne HF].
  rewrite <- (take_ge header w) at 2 by done.
  rewrite <- fmap_cons, !Deduplicate_outputs by done. intros [= <- <-].
  destruct (outputs_fmap cols (take w) (header :: rest)) as [-> ->]; [| |done].
  - intros row. apply Key_eq_iff. intros col Hcol.
    rewrite Forall_forall in HF. specialize (HF col Hcol). simpl in HF.
    rewrite lookup_take_lt; [done|]. unfold w. lia.
  - intros row. rewrite !identity_head, !head_lookup.
    rewrite lookup_take_lt; [done|].
    destruct cols as [|col cols]; [done|]. inversion HF; subst. unfold w. lia.
Qed.

Lemma main_ignores_fields_beyond_header_witness :
  main read_decimal (take 1 <$> [["k"]; ["a"; "x"]; ["a"; "y"; "z"]])%string None None
  = Return (take 1 <$> [["k"]; ["a"; "x"]]%string, [("a", "a")]%string).
Proof.
  apply (main_ignores_fields_beyond_header read_decimal ["k"]%string
           [["a"; "x"]; ["a"; "y"; "z"]]%string None None).
  vm_compute. reflexivity.
Defined.

End MainFurther.

(** ** Properties of the command line *)

Import Cli.

Section DecimalFacts.









End DecimalFacts.

Section StringFacts.

Local Open Scope string_scope.

Lemma append_cons_str a s t : String a s +:+ t = String a (s +:+ t).
Proof. done. Qed.

Lemma append_empty_r s : s +:+ "" = s.
Proof. induction s as [|a s IH]; [done|]. by rewrite append_cons_str, IH. Qed.

Lemma append_assoc_str s1 s2 s3 : (s1 +:+ s2) +:+ s3 = s1 +:+ (s2 +:+ s3).
Proof.
  induction s1 as [|a s1 IH]; [done|]. by rewrite !append_cons_str, IH.
Qed.

Lemma length_append_str s1 s2 :
  String.length (s1 +:+ s2) = (String.length s1 + String.length s2)%nat.
Proof.
  induction s1 as [|a s1 IH]; [done|]. rewrite append_cons_str. simpl.
  by rewrite IH.
Qed.

Lemma string_of_list_app l1 l2 :
  String.string_of_list_ascii (l1 ++ l2)
  = String.string_of_list_ascii l1 +:+ String.string_of_list_ascii l2.
Proof.
  induction l1 as [|a l1 IH]; [done|]. simpl. by rewrite append_cons_str, IH.
Qed.

Lemma sep_free_chars sep s :
  sep_free sep s = true ↔ sep ∉ String.list_ascii_of_string s.
Proof.
  induction s as [|a s IH]; simpl.
  - split; [|done]. intros _. apply not_elem_of_nil.
  - rewrite not_elem_of_cons, <- IH, andb_true_iff, negb_true_iff.
    destruct (Ascii.eqb_spec a sep) as [->|Hne]; split; try done.
    + by intros [? _].
    + by intros [? _].
    + intros [_ ?]. done.
    + intros [_ ?]. done.
Qed.

Lemma sep_free_list sep l :
  sep ∉ l → sep_free sep (String.string_of_list_ascii l) = true.
Proof.
  intros H. apply sep_free_chars.
  by rewrite String.list_ascii_of_string_of_list_ascii.
Qed.

Lemma sep_free_append sep s1 s2 :
  sep_free sep s1 = true → sep_free sep s2 = true → sep_free sep (s1 +:+ s2) = true.
Proof.
  induction s1 as [|a s1 IH]; [done|]. rewrite append_cons_str. simpl.
  rewrite !andb_true_iff. intros [Ha H1] H2. split; [done|]. by apply IH.
Qed.

(** The index found by [rfind] is -1 or a position of the list, and the
    character does not occur after it. *)
Lemma rfind_from_spec a l i found :
  (rfind_from a l i found = found ∧ a ∉ l) ∨
  (∃ k : nat, rfind_from a l i found = i + Z.of_nat k ∧
              l !! k = Some a ∧ a ∉ drop (S k) l).
Proof.
  revert i found. induction l as [|x l IH]; intros i found; simpl.
  - left. split; [done|]. apply not_elem_of_nil.
  - destruct (IH (i + 1) (if Ascii.eqb x a then i else found))
      as [[Hr Hn]|(k & Hr & Hk & Hn)].
    + destruct (Ascii.eqb_spec x a) as [->|Hne].
      * right. exists 0%nat. rewrite Hr. split_and!; [lia|done|done].
      * left. split; [done|]. by apply not_elem_of_cons.
    + right. exists (S k). split_and!; [lia|done|done].
Qed.

Lemma rfind_bounds a l : -1 ≤ rfind a l < Z.of_nat (length l).
Proof.
  unfold rfind. destruct (rfind_from_spec a l 0 (-1)) as [[-> _]|(k & -> & Hk & _)].
  - lia.
  - apply lookup_lt_Some in Hk. lia.
Qed.

Lemma rfind_after a l : a ∉ drop (Z.to_nat (rfind a l + 1)) l.
Proof.
  unfold rfind. destruct (rfind_from_spec a l 0 (-1)) as [[-> Hn]|(k & -> & _ & Hn)].
  - done.
  - by replace (Z.to_nat (0 + Z.of_nat k + 1)) with (S k) by lia.
Qed.

(** [os.path.splitext]: the two parts put together give the path back. *)
Lemma splitext_join p : (splitext p).1 +:+ (splitext p).2 = p.
Proof.
  unfold splitext. cbv zeta.
  destruct (rfind "/" _ <? rfind "." _)%Z; [|apply append_empty_r].
  destruct (existsb _ _); [|apply append_empty_r]. cbn [fst snd].
  by rewrite <- string_of_list_app, take_drop, String.string_of_list_ascii_of_string.
Qed.

Lemma output_file_parts p :
  output_file p = (splitext p).1 +:+ "_deduped" +:+ (splitext p).2.
Proof. unfold output_file. by destruct (splitext p). Qed.

End StringFacts.

Section OutputName.

Local Open Scope string_scope.

(** The output file name is the input file name with eight characters
    added: it is never the name of the input file, and never the name of
    the duplicate log. *)
Theorem output_file_distinct p :
  String.length (output_file p) = (String.length p + 8)%nat ∧
  output_file p ≠ p ∧
  output_file p ≠ dup_file_name.
Proof.
  assert (String.length (output_file p) = (String.length p + 8)%nat) as Hlen.
  { assert (String.length p
            = String.length ((splitext p).1 +:+ (splitext p).2)) as ->
      by (by rewrite splitext_join).
    rewrite output_file_parts, !length_append_str. simpl. lia. }
  split_and!; [done| |].
  - intros Heq. rewrite Heq in Hlen. lia.
  - rewrite output_file_parts. generalize (splitext p).1 (splitext p).2.
    intros base ext H. unfold dup_file_name in H.
    repeat (destruct base as [|? base]; vm_compute in H;
            [discriminate H | first [discriminate H | injection H as _ H]]).
Qed.

(** The output file is written next to the input file: both names share
    the directory part (everything up to the last "/"), and what follows
    it contains no "/" in either name. *)
Theorem output_file_same_directory p :
  ∃ dir name name',
    p = dir +:+ name ∧
    output_file p = dir +:+ name' ∧
    sep_free "/" name = true ∧
    sep_free "/" name' = true.
Proof.
  set (l := String.list_ascii_of_string p).
  set (n := Z.to_nat (rfind "/" l + 1)).
  pose proof (rfind_bounds "/" l) as Hsep.
  pose proof (rfind_bounds "." l) as Hdot.
  pose proof (rfind_after "/" l) as Hafter. fold n in Hafter.
  assert (p = String.string_of_list_ascii (take n l)
              +:+ String.string_of_list_ascii (drop n l)) as Hp.
  { rewrite <- string_of_list_app, take_drop. unfold l.
    by rewrite String.string_of_list_ascii_of_string. }
  exists (String.string_of_list_ascii (take n l)),
         (String.string_of_list_ascii (drop n l)).
  unfold output_file, splitext. cbv zeta. fold l.
  destruct (rfind "/" l <? rfind "." l)%Z eqn:Hlt;
    [destruct (existsb _ _)|].
  - set (d := Z.to_nat (rfind "." l)).
    apply Z.ltb_lt in Hlt.
    assert (n ≤ d)%nat as Hnd by (unfold n, d; lia).
    exists (String.string_of_list_ascii (drop n (take d l))
            +:+ "_deduped" +:+ String.string_of_list_ascii (drop d l)).
    split_and!; [done| |by apply sep_free_list|].
    + rewrite <- (append_assoc_str (String.string_of_list_ascii (take n l))),
              <- string_of_list_app.
      do 2 f_equal. rewrite <- (take_drop n (take d l)) at 1. f_equal.
      rewrite take_take. f_equal. lia.
    + apply sep_free_append; [|apply sep_free_append; [done|]];
        apply sep_free_list; intros Hin; apply Hafter.
      * apply list_elem_of_lookup in Hin as [i Hi].
        rewrite lookup_drop in Hi. apply lookup_take_Some in Hi as [Hi _].
        apply list_elem_of_lookup. exists i. by rewrite lookup_drop.
      * replace d with (n + (d - n))%nat in Hin by lia.
        rewrite <- drop_drop in Hin.
        apply list_elem_of_lookup in Hin as [i Hi]. rewrite lookup_drop in Hi.
        apply list_elem_of_lookup. by eauto.
  - exists (String.string_of_list_ascii (drop n l) +:+ "_deduped" +:+ "").
    split_and!; [done| |by apply sep_free_list|].
    + by rewrite <- (append_assoc_str (String.string_of_list_ascii (take n l))),
                 <- Hp.
    + apply sep_free_append; [by apply sep_free_list|done].
  - exists (String.string_of_list_ascii (drop n l) +:+ "_deduped" +:+ "").
    split_and!; [done| |by apply sep_free_list|].
    + by rewrite <- (append_assoc_str (String.string_of_list_ascii (take n l))),
                 <- Hp.
    + apply sep_free_append; [by apply sep_free_list|done].
Qed.

End OutputName.

Section Listing.

Local Open Scope string_scope.



End Listing.

Section AllOrNothing.

Local Open Scope string_scope.

(** Taking the opening and writing of the two output files to succeed, a
    run either reaches the end of [main] having written both files, the
    duplicate log first, with the outputs of the deduplication of the rows
    read, or it stops having opened no file for writing at all: every
    exit and the listing of [-q] come before the first file is opened, and
    nothing interrupts the loop (the one exception that can escape, the
    [OverflowError] of the column selection, is raised before the first
    file is opened). *)
Theorem main_all_or_nothing (int : string → option Z) args isfile content :
  let run := Cli.main int args isfile content in
  (ended run = Completed ∧
   ∃ rows deduped pairs,
     isfile = true ∧ q args = false ∧ content = Rows rows ∧
     Dedup.main int rows (r args) (c args) = Return (deduped, pairs) ∧
     written run = [(dup_file_name, (λ p : string * string, [p.1; p.2]) <$> pairs);
                    (output_file (csvfile args), deduped)] ∧
     stdout run = ["Deduplicated CSV file written to " +:+ output_file (csvfile args);
                   "Duplicate pairs (column1 values) have been written to 'deduplicate_list'."]) ∨
  (ended run ≠ Completed ∧ written run = []).
Proof.
  intros run. unfold run, Cli.main.
  destruct isfile; [|by right]. cbn [negb].
  destruct (q args) eqn:Hq.
  { right. by destruct content as [[|headers rest]|e]. }
  destruct content as [[|header rest]|e]; [by right| |by right].
  unfold Dedup.main.
  destruct (parse_columns_options int (r args) (c args) (Z.of_nat (length header)))
    as [cols|msg|e] eqn:Hp; [|by right..].
  pose proof (resolved_positive _ _ _ _ _ Hp) as Hcols.
  pose proof (Deduplicate_outputs cols (header :: rest) Hcols) as Hd.
  rewrite Hd. cbn [bind].
  left. split; [done|].
  exists (header :: rest), (first_occurrences cols (header :: rest)),
         (duplicate_pairs cols (header :: rest)).
  split_and!; try done. by rewrite Hp.
Qed.

End AllOrNothing.
